(** * CFP_NER: the entity chunker, the output step and the URL check

    A shallow embedding of [CFP_NER.py].  Python [str] values are modelled as
    [string]s whose characters are code points below 256 (the scraped text is
    ASCII after [get_cfp]'s encode/decode round trip); Python lists as
    [list]s; the tuples of [tree2conlltags] as a record; the two-element lists
    [[ent, ent_type]] as pairs.  The NER engines, the HTTP client, the HTML
    parser and [urlparse] are outside the repository and enter as the fields
    of a record of collaborators. *)

From Stdlib Require Import String Ascii List Bool Arith NArith Lia.
From Stdlib Require Import Permutation Sorted Orders Mergesort.
Import ListNotations.
Open Scope string_scope.

(** ** Python string primitives used by the program *)

Module PyStr.

(** [str.isspace] on one code point below 256: TAB..CR, FS..US, SPACE,
    NEL and NBSP. *)
Definition is_space (c : ascii) : bool :=
  let n := nat_of_ascii c in
  (((9 <=? n) && (n <=? 13)) || ((28 <=? n) && (n <=? 32))
   || (n =? 133) || (n =? 160))%nat.

Fixpoint lstrip (s : string) : string :=
  match s with
  | EmptyString => EmptyString
  | String c t => if is_space c then lstrip t else s
  end.

Fixpoint rstrip (s : string) : string :=
  match s with
  | EmptyString => EmptyString
  | String c t =>
      match rstrip t with
      | EmptyString => if is_space c then EmptyString else String c EmptyString
      | r => String c r
      end
  end.

(** [s.strip()] *)
Definition strip (s : string) : string := rstrip (lstrip s).

(** [sep.join(l)] *)
Fixpoint join (sep : string) (l : list string) : string :=
  match l with
  | [] => ""
  | [x] => x
  | x :: rest => x ++ sep ++ join sep rest
  end.

(** [s.replace(old, ' ')] for a one-character [old]. *)
Fixpoint replace_char (old : ascii) (s : string) : string :=
  match s with
  | EmptyString => EmptyString
  | String c t =>
      String (if Ascii.eqb c old then " "%char else c) (replace_char old t)
  end.

(** [s.encode('ASCII', 'ignore').decode('ASCII')]: code points from 128 on
    are dropped. *)
Fixpoint ascii_only (s : string) : string :=
  match s with
  | EmptyString => EmptyString
  | String c t =>
      if (nat_of_ascii c <? 128)%nat then String c (ascii_only t) else ascii_only t
  end.

Definition nl : string := String (ascii_of_nat 10) EmptyString.
Definition tab : ascii := ascii_of_nat 9.
Definition newline : ascii := ascii_of_nat 10.

(** [s.startswith(p)] *)
Definition startswith (s p : string) : bool := String.prefix p s.

End PyStr.

(** ** The entity chunker of [stanford_ner] (lines 86-103) *)

Module Chunker.
Import PyStr.

(** One tuple of [tree2conlltags]: [chunk[0]], [chunk[1]], [chunk[2]]. *)
Record conll := Conll { word : string; tag : string; iob : string }.

(** One element of the result, [[ent, ent_type]]. *)
Definition entity : Type := (string * string)%type.

Definition is_begin (c : conll) : bool := iob c =? "B-Tag".
Definition is_inside (c : conll) : bool := iob c =? "I-Tag".

(** The inner loop, lines 95-99: [for chunkseq in ne_chunks[i+1:]] with its
    two tests and the [break]. *)
Fixpoint merge_itags (ent : string) (rest : list conll) : string :=
  match rest with
  | [] => ent
  | chunkseq :: rest' =>
      let ent' :=
        if iob chunkseq =? "I-Tag"
        then ent ++ " " ++ strip (word chunkseq)
        else ent in
      if negb (iob chunkseq =? "I-Tag") then ent'
      else merge_itags ent' rest'
  end.

(** Lines 100-101. *)
Definition normalize (ent_type : string) : string :=
  if ent_type =? "ORGANIZATION" then "ORG" else ent_type.

(** [enumerate(l)] *)
Definition enumerate {A : Type} (l : list A) : list (nat * A) :=
  combine (seq 0 (length l)) l.

(** The body of the outer loop, lines 92-102, at index [i]. *)
Definition chunk_step (ne_chunks : list conll) (result : list entity)
  (ic : nat * conll) : list entity :=
  let '(i, chunk) := ic in
  if iob chunk =? "B-Tag" then
    let ent_type := tag chunk in
    let ent := strip (word chunk) in
    let ent := merge_itags ent (skipn (i + 1) ne_chunks) in
    let ent_type := normalize ent_type in
    (result ++ [(ent, ent_type)])%list
  else result.

(** Lines 90-103: the loop over [enumerate(ne_chunks)]. *)
Definition stanford_ner_chunks (ne_chunks : list conll) : list entity :=
  fold_left (chunk_step ne_chunks) (enumerate ne_chunks) [].

(** Modelled from the spec: NLTK's [RegexpParser] and [tree2conlltags] are a
    library outside the repository; the grammar is the one of line 88,
    [Tag: {<ORGANIZATION|PERSON.*>+}], "a chunking rule that groups any
    maximal run of person- or organization-tagged tokens into one chunk". *)
Definition tag_in_grammar (t : string) : bool :=
  (t =? "ORGANIZATION") || startswith t "PERSON".

(** Modelled from the spec: the IOB markers of the chunk tree: the first
    token of a maximal run gets ["B-Tag"], the following ones ["I-Tag"],
    every token outside a run ["O"].  [inside] tells whether the previous
    token was in a run. *)
Fixpoint conlltags (inside : bool) (tokens : list (string * string))
  : list conll :=
  match tokens with
  | [] => []
  | (w, t) :: rest =>
      if tag_in_grammar t
      then Conll w t (if inside then "I-Tag" else "B-Tag") :: conlltags true rest
      else Conll w t "O" :: conlltags false rest
  end.

(** Lines 88-89. *)
Definition tree2conlltags_parse (ne_tokenchunks : list (string * string))
  : list conll := conlltags false ne_tokenchunks.

(** *** Specification-side notions *)

Fixpoint take_while {A : Type} (p : A -> bool) (l : list A) : list A :=
  match l with
  | [] => []
  | x :: r => if p x then x :: take_while p r else []
  end.

Fixpoint drop_while {A : Type} (p : A -> bool) (l : list A) : list A :=
  match l with
  | [] => []
  | x :: r => if p x then drop_while p r else l
  end.

(** The text built from a run of triples. *)
Definition run_text (run : list conll) : string :=
  join " " (map (fun c => strip (word c)) run).

(** The entity whose begin token is [b] and whose followers are [rest]. *)
Definition entity_of (b : conll) (rest : list conll) : entity :=
  (run_text (b :: take_while is_inside rest), normalize (tag b)).

(** The entity begun at position [i] of [l]. *)
Definition entity_at (l : list conll) (i : nat) : entity :=
  entity_of (nth i l (Conll "" "" "")) (skipn (S i) l).

Definition begin_at (l : list conll) (i : nat) : bool :=
  match nth_error l i with
  | Some c => is_begin c
  | None => false
  end.

(** The scan by structural recursion: an entity for every begin marker,
    then the scan of the whole tail. *)
Fixpoint entities (l : list conll) : list entity :=
  match l with
  | [] => []
  | c :: r => if is_begin c then entity_of c r :: entities r else entities r
  end.

Definition count_begin (l : list conll) : nat :=
  List.length (filter is_begin l).

(** The state of a run after [pre], from the state [st] before it. *)
Definition run_from (st : bool) (pre : list conll) : bool :=
  fold_left
    (fun st c => if is_begin c then true else if is_inside c then st else false)
    pre st.

(** Whether the last triple of [pre] lies in a run opened by a ["B-Tag"]:
    a begin marker opens a run, inside markers continue whatever state
    they find, anything else closes it. *)
Definition run_open (pre : list conll) : bool := run_from false pre.

(** *** Sample sequences *)

(** The run of the specification's example. *)
Definition sample_chunks : list conll :=
  [Conll "Acme" "ORGANIZATION" "B-Tag"; Conll "Corp" "ORGANIZATION" "I-Tag";
   Conll "said" "O" "O"].

(** A well-formed entity before an inside marker that nothing opens. *)
Definition orphan_chunks_pre : list conll :=
  [Conll "Jane" "PERSON" "B-Tag"; Conll "of" "O" "O"].

(** Tagger output with a person run right before an organization token. *)
Definition mixed_tokens : list (string * string) :=
  [("John", "PERSON"); ("Smith", "PERSON"); ("MIT", "ORGANIZATION");
   ("invites", "O")].

End Chunker.

(** ** The output step of the main program (lines 148-156) *)

Module StringOrder <: TotalLeBool.
Definition t := string.
Definition leb := String.leb.
Lemma leb_total : forall a b : t, leb a b = true \/ leb b a = true.
Proof. exact String.leb_total. Qed.
End StringOrder.

Module StringSort := Sort StringOrder.

Module Output.
Import Chunker.

(** [l.sort()] on a list of [str]: ascending in the lexicographic order on
    code points.  That order is total and antisymmetric, so the sorted list is
    unique ([sorted_unique] below) and any sorting function models it. *)
Definition sort (l : list string) : list string := StringSort.sort l.

(** The body of the loop of lines 150-154 on the pair of accumulators. *)
Definition partition_step (acc : list string * list string) (entity : entity)
  : list string * list string :=
  let '(names, affiliations) := acc in
  let affiliations :=
    if snd entity =? "ORG" then (affiliations ++ [fst entity])%list
    else affiliations in
  let names :=
    if snd entity =? "PERSON" then (names ++ [fst entity])%list
    else names in
  (names, affiliations).

(** Lines 148-156: the two lists as they stand before they are printed. *)
Definition names_affiliations (result : list entity)
  : list string * list string :=
  let '(names, affiliations) := fold_left partition_step result ([], []) in
  (sort names, sort affiliations).

(** The texts of the entities of one category, in input order. *)
Definition texts_of (category : string) (result : list entity) : list string :=
  map fst (filter (fun e => snd e =? category) result).

Definition sorted (l : list string) : Prop :=
  StronglySorted (fun a b => String.leb a b = true) l.

End Output.

(** ** The program: collaborators, [get_cfp], the two NER paths, [__main__] *)

Module Program.
Import PyStr Chunker Output.

(** The six components of [urlparse]'s named tuple. *)
Record ParseResult := {
  scheme : string; netloc : string; path : string;
  params : string; query : string; fragment : string
}.

Definition components (u : ParseResult) : list string :=
  [scheme u; netloc u; path u; params u; query u; fragment u].

(** [x in u] on a tuple: some element equals [x]. *)
Definition tuple_contains (x : string) (u : ParseResult) : bool :=
  existsb (String.eqb x) (components u).

Inductive model_choice := m1 | m2.

(** The namespace of [parser.parse_args()]. *)
Record Args := { arg_url : string; arg_model : model_choice }.

(** How [parser.parse_args()] of line 123 ends for the parser of lines
    109-121: with the namespace; with the usage message on standard error
    and [exit(2)] (no [--url], a [--model] outside [m1] and [m2], an unknown
    argument); or, on [-h], with the help text on standard output and
    [exit(0)]. *)
Inductive parsed :=
| Namespace (args : Args)
| UsageError
| HelpRequested (help : string).

(** What lies outside the repository.  [requests_get] gives the text of the
    response, or the name of the exception [requests] raised (never an
    [AttributeError]); [soup_find_cfp] is
    [BeautifulSoup(html, 'html5lib').find('div', attrs={'class': 'cfp'})]
    followed, when the [div] exists, by [find_all(text=True)]; [nlp_ents]
    gives the [text] and [label_] of spaCy's spans; [st_tag] is the Stanford
    tagger on the tokens of [word_tokenize].

    [urlparse], [nlp_ents], [word_tokenize] and [st_tag] say what these
    calls return when they return.  Whether they raise instead is told by
    [urlparse_raises] (on the URL: a [ValueError] on a malformed bracketed
    host, for one), [nlp_raises] and [st_tag_raises] (on the text handed to
    [spacy_ner] and to [stanford_ner]: loading the model, the tokenizer or
    the tagger failing), each giving the name of the exception.
    [parse_args] is [argparse] on the command line. *)
Record World := {
  urlparse : string -> ParseResult;
  geturl : ParseResult -> string;
  requests_get : string -> string + string;
  soup_find_cfp : string -> option (list string);
  nlp_ents : string -> list (string * string);
  word_tokenize : string -> list string;
  st_tag : list string -> list (string * string);
  parse_args : list string -> parsed;
  urlparse_raises : string -> option string;
  nlp_raises : string -> option string;
  st_tag_raises : string -> option string
}.

(** How a run ends early: [exit(status)], or an exception nobody catches. *)
Inductive halt := SystemExit (status : nat) | Uncaught (exn : string).

(** A computation that prints and may halt: standard output, as the list
    of the texts written to it, oldest first, is threaded through. *)
Definition proc (A : Type) : Type := list string -> (halt + A) * list string.

Definition ret {A : Type} (a : A) : proc A := fun out => (inr a, out).

Definition bind {A B : Type} (m : proc A) (k : A -> proc B) : proc B :=
  fun out =>
    match m out with
    | (inl h, out') => (inl h, out')
    | (inr a, out') => k a out'
    end.

Notation "x <- m ;; k" := (bind m (fun x => k))
  (at level 61, m at next level, right associativity).
Notation "m ;;; k" := (bind m (fun _ => k))
  (at level 61, right associativity).

(** [print(a, b, ...)]: the arguments separated by one space, then a newline. *)
Definition print (args : list string) : proc unit :=
  fun out => (inr tt, (out ++ [(join " " args ++ nl)%string])%list).

Definition exit {A : Type} (status : nat) : proc A :=
  fun out => (inl (SystemExit status), out).

Definition raise {A : Type} (exn : string) : proc A :=
  fun out => (inl (Uncaught exn), out).

(** One text written to standard output as it is, as [argparse] writes
    its help. *)
Definition write (text : string) : proc unit :=
  fun out => (inr tt, (out ++ [text])%list).

Definition invalid_url_message : string := "Please enter a valid URL".

(** The line [RegexpChunkParser.parse] of NLTK prints, on standard output,
    when it is given no token (library behaviour, reached through line
    89). *)
Definition empty_text_warning : string := "Warning: parsing empty text".

Section WithWorld.
Variable W : World.

(** Lines 31-42. *)
Definition get_cfp (url : string) : proc string :=
  match requests_get W url with
  | inl exn => raise exn
  | inr html =>
      match soup_find_cfp W html with
      | None => print [invalid_url_message] ;;; exit 0
      | Some cfp =>
          let cfp := join " " cfp in
          let cfp := ascii_only cfp in
          let cfp := replace_char tab (replace_char newline (strip cfp)) in
          ret cfp
      end
  end.

(** Lines 55-63: the list [spacy_ner] returns when the engine returns. *)
Definition spacy_ner (cfp : string) : list entity :=
  let ne_chunks := nlp_ents W cfp in
  fold_left
    (fun result chunk =>
       if (snd chunk =? "ORG") || (snd chunk =? "PERSON")
       then (result ++ [(strip (fst chunk), snd chunk)])%list
       else result)
    ne_chunks [].

(** Lines 84-103: the list [stanford_ner] returns when the tagger returns.
    What the call prints and raises besides is in [call_stanford_ner]. *)
Definition stanford_ner (cfp : string) : list entity :=
  let ne_tokenchunks := st_tag W (word_tokenize W cfp) in
  let ne_chunks := tree2conlltags_parse ne_tokenchunks in
  stanford_ner_chunks ne_chunks.

(** The call of line 141: the exception of the engine, or the list. *)
Definition call_spacy_ner (cfp : string) : proc (list entity) :=
  match nlp_raises W cfp with
  | Some exn => raise exn
  | None => ret (spacy_ner cfp)
  end.

(** The call of line 143: the exception of the tokenizer or the tagger
    (line 84), or else the warning of the parser of line 89 when there is
    no token, and the list. *)
Definition call_stanford_ner (cfp : string) : proc (list entity) :=
  match st_tag_raises W cfp with
  | Some exn => raise exn
  | None =>
      (match st_tag W (word_tokenize W cfp) with
       | [] => print [empty_text_warning]
       | _ :: _ => ret tt
       end) ;;;
      ret (stanford_ner cfp)
  end.

(** Steps 2 to 4 once the URL has passed the check, lines 134-158. *)
Definition process (url : ParseResult) (model : model_choice) : proc unit :=
  cfp <- get_cfp (geturl W url) ;;
  result <-
    match model with
    | m1 => call_spacy_ner cfp
    | m2 => call_stanford_ner cfp
    end ;;
  let '(names, affiliations) := names_affiliations result in
  print ["***Names***" ++ nl; join " * " names; nl] ;;;
  print ["***Affiliations***" ++ nl; join " * " affiliations].

(** Lines 129-158, once [urlparse] has returned. *)
Definition main (args : Args) : proc unit :=
  let url := urlparse W (arg_url args) in
  (if negb (tuple_contains "wikicfp.com" url)
   then print [invalid_url_message] ;;; exit 0
   else ret tt) ;;;
  process url (arg_model args).

(** The run from line 129 on, for the parsed arguments [args] and a URL
    that [urlparse] accepts: the halt or normal end, and everything
    printed. *)
Definition run (args : Args) : (halt + unit) * list string := main args [].

(** Lines 123-158: the exits of [parse_args], the exception of [urlparse]
    at line 129, or the rest. *)
Definition program (argv : list string) : proc unit :=
  match parse_args W argv with
  | UsageError => exit 2
  | HelpRequested help => write help ;;; exit 0
  | Namespace args =>
      match urlparse_raises W (arg_url args) with
      | Some exn => raise exn
      | None => main args
      end
  end.

(** The whole run on the command line [argv]. *)
Definition execute (argv : list string) : (halt + unit) * list string :=
  program argv [].

End WithWorld.

(** What the rejection looks like: the message alone on standard output,
    and [exit(0)]. *)
Definition rejected : (halt + unit) * list string :=
  (inl (SystemExit 0), [invalid_url_message ++ nl]).

(** Command lines for examples: [--url U], [--url U --model M] and [-h]. *)
Definition sample_parse_args (argv : list string) : parsed :=
  match argv with
  | [h] => if h =? "-h" then HelpRequested "usage: CFP_NER.py --url URL"
           else UsageError
  | [f; u] =>
      if f =? "--url" then Namespace {| arg_url := u; arg_model := m1 |}
      else UsageError
  | [f; u; g; m] =>
      if (f =? "--url") && (g =? "--model") then
        if m =? "m1" then Namespace {| arg_url := u; arg_model := m1 |}
        else if m =? "m2" then Namespace {| arg_url := u; arg_model := m2 |}
        else UsageError
      else UsageError
  | _ => UsageError
  end.

(** A world for examples: [urlparse] gives [u] and the page, when the fetch
    succeeds, has the text nodes [cfp] in its [cfp] section. *)
Definition sample_world (u : ParseResult) (response : string + string)
  (cfp : option (list string)) : World :=
  {| urlparse := fun _ => u;
     geturl := fun u => scheme u ++ "://" ++ netloc u ++ path u;
     requests_get := fun _ => response;
     soup_find_cfp := fun _ => cfp;
     nlp_ents := fun _ => [("Jane Doe ", "PERSON"); ("2024", "DATE"); ("MIT", "ORG")];
     word_tokenize := fun _ => map fst mixed_tokens;
     st_tag := fun _ => mixed_tokens;
     parse_args := sample_parse_args;
     urlparse_raises := fun _ => None;
     nlp_raises := fun _ => None;
     st_tag_raises := fun _ => None |}.

Definition wikicfp_home : ParseResult :=
  {| scheme := "http"; netloc := "wikicfp.com"; path := "";
     params := ""; query := ""; fragment := "" |}.

Definition www_wikicfp_event : ParseResult :=
  {| scheme := "http"; netloc := "www.wikicfp.com";
     path := "/cfp/servlet/event.showcfp";
     params := ""; query := "eventid=1"; fragment := "" |}.

Definition example_org : ParseResult :=
  {| scheme := "https"; netloc := "example.org"; path := "/";
     params := ""; query := ""; fragment := "" |}.



(** A world whose page has an empty section and whose tagger, when
    [tagger] is given, fails. *)
Definition empty_section_world (tagger : option string) : World :=
  {| urlparse := fun _ => wikicfp_home;
     geturl := fun u => scheme u ++ "://" ++ netloc u ++ path u;
     requests_get := fun _ => inr "<html>";
     soup_find_cfp := fun _ => Some [];
     nlp_ents := fun _ => [];
     word_tokenize := fun _ => [];
     st_tag := fun _ => [];
     parse_args := sample_parse_args;
     urlparse_raises := fun _ => None;
     nlp_raises := fun _ => None;
     st_tag_raises := fun _ => tagger |}.

End Program.

(** ** Notions for the properties of the whole program *)

Module Report.
Import PyStr Chunker Output Program.

(** The text [get_cfp] returns for the text nodes [texts] of the section,
    lines 35-37. *)
Definition clean_text (texts : list string) : string :=
  replace_char tab
    (replace_char newline (strip (ascii_only (join " " texts)))).

(** Step 3, lines 138-143: the path the [--model] argument selects. *)
Definition ner (W : World) (model : model_choice) (cfp : string)
  : list entity :=
  match model with
  | m1 => spacy_ner W cfp
  | m2 => stanford_ner W cfp
  end.

(** The exception the selected path raises on [cfp], if any. *)
Definition engine_raises (W : World) (model : model_choice) (cfp : string)
  : option string :=
  match model with
  | m1 => nlp_raises W cfp
  | m2 => st_tag_raises W cfp
  end.

(** What the selected path prints on [cfp]: the parser's warning, on the
    Stanford path, when the tagger gives no token. *)
Definition warning (W : World) (model : model_choice) (cfp : string)
  : list string :=
  match model with
  | m1 => []
  | m2 =>
      match st_tag W (word_tokenize W cfp) with
      | [] => [empty_text_warning ++ nl]
      | _ :: _ => []
      end
  end.

(** The labels of the 7-class classifier of line 81
    ([english.muc.7class.distsim.crf.ser.gz], not in the repository), and
    [O] for a token outside every class. *)
Definition muc7_labels : list string :=
  ["LOCATION"; "PERSON"; "ORGANIZATION"; "MONEY"; "PERCENT"; "DATE"; "TIME";
   "O"].

(** Lines 157-158: what the two [print] calls write for [result]. *)
Definition report (result : list entity) : list string :=
  ["***Names***" ++ nl ++ " "
     ++ join " * " (fst (names_affiliations result)) ++ " " ++ nl ++ nl;
   "***Affiliations***" ++ nl ++ " "
     ++ join " * " (snd (names_affiliations result)) ++ nl].

(** Whether the URL passes the check of line 130. *)
Definition url_accepted (W : World) (args : Args) : bool :=
  tuple_contains "wikicfp.com" (urlparse W (arg_url args)).

(** The response to the request of line 32. *)
Definition response (W : World) (args : Args) : string + string :=
  requests_get W (geturl W (urlparse W (arg_url args))).

(** The categories the output step keeps. *)
Definition kept (e : entity) : bool :=
  (snd e =? "ORG") || (snd e =? "PERSON").

(** The triples each entity is built from: for every begin marker, the
    begin triple and the inside triples right after it. *)
Fixpoint runs (l : list conll) : list (list conll) :=
  match l with
  | [] => []
  | c :: r =>
      if is_begin c then (c :: take_while is_inside r) :: runs r else runs r
  end.

Definition entity_of_run (run : list conll) : entity :=
  (run_text run, normalize (tag (hd (Conll "" "" "") run))).

(** The triples of [l] that lie in a run a begin marker opened, in order;
    [st] tells whether a run is open before [l] (see [run_from]). *)
Fixpoint in_runs (st : bool) (l : list conll) : list conll :=
  match l with
  | [] => []
  | c :: r =>
      if is_begin c then c :: in_runs true r
      else if is_inside c then
             (if st then c :: in_runs true r else in_runs false r)
           else in_runs false r
  end.

(** Non-empty, and unchanged by trimming on either side. *)
Definition tight (s : string) : Prop :=
  s <> "" /\ lstrip s = s /\ rstrip s = s.

(** The text nodes of a section as a page may hold them. *)
Definition sample_texts : list string :=
  [String newline "Call for" ++ String tab "Papers";
   String (ascii_of_nat 233) "cole " ++ String newline ""].

(** Two triples the chunker cannot tell apart: the same marker, the same
    word once trimmed and, on a begin marker, the same tag. *)
Definition same_for_chunker (c d : conll) : Prop :=
  iob c = iob d
  /\ strip (word c) = strip (word d)
  /\ (iob c = "B-Tag" -> tag c = tag d).

End Report.

(** * Properties *)

(** ** Strings *)

Module PyStrFacts.
Import PyStr.

Lemma append_assoc (a b c : string) : (a ++ b) ++ c = a ++ (b ++ c).
Proof.
  induction a as [|x a IH]; simpl; [reflexivity | now rewrite IH].
Qed.

Lemma join_cons2 (sep x y : string) (l : list string) :
  join sep (x :: y :: l) = x ++ sep ++ join sep (y :: l).
Proof. reflexivity. Qed.

Lemma join_snoc (sep : string) (l : list string) (x y : string) :
  join sep ((x :: l) ++ [y]) = join sep (x :: l) ++ sep ++ y.
Proof.
  revert x; induction l as [|z l IH]; intro x.
  - reflexivity.
  - change ((x :: z :: l) ++ [y])%list with (x :: ((z :: l) ++ [y]))%list.
    change ((z :: l) ++ [y])%list with (z :: (l ++ [y]))%list.
    rewrite join_cons2.
    change (z :: (l ++ [y]))%list with ((z :: l) ++ [y])%list.
    rewrite IH, join_cons2, !append_assoc. reflexivity.
Qed.

Lemma rstrip_idem (s : string) : rstrip (rstrip s) = rstrip s.
Proof.
  induction s as [|c s IH]; simpl; [reflexivity|].
  destruct (rstrip s) as [|d r] eqn:E.
  - destruct (is_space c) eqn:Ec; simpl; [reflexivity | now rewrite Ec].
  - simpl in *. now rewrite IH.
Qed.

Lemma lstrip_rstrip (s : string) : lstrip (rstrip (lstrip s)) = rstrip (lstrip s).
Proof.
  induction s as [|c s IH]; simpl; [reflexivity|].
  destruct (is_space c) eqn:Ec; [exact IH|].
  simpl. destruct (rstrip s); rewrite ?Ec; simpl; rewrite ?Ec; reflexivity.
Qed.

(** Trimming twice is trimming once. *)
Lemma strip_idem (s : string) : strip (strip s) = strip s.
Proof.
  unfold strip. rewrite lstrip_rstrip. apply rstrip_idem.
Qed.

End PyStrFacts.

(** ** The chunker *)

Module ChunkerFacts.
Import PyStr PyStrFacts Chunker.

Lemma begin_not_inside (c : conll) : is_begin c = true -> is_inside c = false.
Proof.
  unfold is_begin, is_inside. intro H.
  apply String.eqb_eq in H. now rewrite H.
Qed.

Lemma inside_not_begin (c : conll) : is_inside c = true -> is_begin c = false.
Proof.
  unfold is_begin, is_inside. intro H.
  apply String.eqb_eq in H. now rewrite H.
Qed.

Lemma take_drop_while {A : Type} (p : A -> bool) (l : list A) :
  (take_while p l ++ drop_while p l)%list = l.
Proof.
  induction l as [|x l IH]; simpl; [reflexivity|].
  destruct (p x); simpl; [now rewrite IH | reflexivity].
Qed.

Lemma take_while_all {A : Type} (p : A -> bool) (l : list A) :
  Forall (fun x => p x = true) (take_while p l).
Proof.
  induction l as [|x l IH]; simpl; [constructor|].
  destruct (p x) eqn:E; constructor; assumption.
Qed.

Lemma drop_while_head {A : Type} (p : A -> bool) (l : list A) (x : A) :
  hd_error (drop_while p l) = Some x -> p x = false.
Proof.
  induction l as [|y l IH]; simpl; [discriminate|].
  destruct (p y) eqn:E; [exact IH|].
  simpl. intro H. injection H as <-. exact E.
Qed.

Lemma firstn_take_while {A : Type} (p : A -> bool) (l : list A) :
  firstn (List.length (take_while p l)) l = take_while p l.
Proof.
  induction l as [|x l IH]; simpl; [reflexivity|].
  destruct (p x); simpl; [now rewrite IH | reflexivity].
Qed.

(** The inner loop extends the text by exactly the leading inside run. *)
Lemma merge_itags_run (b : conll) (run rest : list conll) :
  merge_itags (run_text (b :: run)) rest
  = run_text (b :: run ++ take_while is_inside rest).
Proof.
  revert run; induction rest as [|c rest IH]; intro run; simpl.
  - now rewrite app_nil_r.
  - unfold is_inside at 1. destruct (iob c =? "I-Tag") eqn:E; simpl.
    + replace (run ++ c :: take_while is_inside rest)%list
        with ((run ++ [c]) ++ take_while is_inside rest)%list
        by (now rewrite <- app_assoc).
      rewrite <- (IH (run ++ [c])%list).
      f_equal. unfold run_text.
      change (b :: run ++ [c])%list with ((b :: run) ++ [c])%list.
      rewrite map_app. simpl map at 1. simpl map at 2.
      symmetry. apply join_snoc.
    + now rewrite app_nil_r.
Qed.

(** The loop over [enumerate] from position [length pre] on. *)
Lemma fold_chunk_step (full pre l : list conll) (acc : list entity) :
  full = (pre ++ l)%list ->
  fold_left (chunk_step full) (combine (seq (List.length pre) (List.length l)) l) acc
  = (acc ++ entities l)%list.
Proof.
  revert pre acc; induction l as [|c l IH]; intros pre acc Hf; simpl.
  - now rewrite app_nil_r.
  - replace (S (List.length pre)) with (List.length (pre ++ [c])%list)
      by (rewrite length_app; simpl; lia).
    rewrite (IH (pre ++ [c])%list) by (now rewrite <- app_assoc).
    unfold is_begin. destruct (iob c =? "B-Tag") eqn:E.
    + replace (skipn (List.length pre + 1) full) with l.
      * change (strip (word c)) with (run_text [c]).
        rewrite merge_itags_run. simpl app.
        rewrite <- app_assoc. reflexivity.
      * subst full. rewrite skipn_app.
        replace (List.length pre + 1 - List.length pre) with 1 by lia.
        rewrite skipn_all2 by lia. reflexivity.
    + reflexivity.
Qed.

(** The loop of the source is the structural scan. *)
Lemma stanford_ner_chunks_entities (l : list conll) :
  stanford_ner_chunks l = entities l.
Proof.
  unfold stanford_ner_chunks, enumerate.
  exact (fold_chunk_step l [] l [] eq_refl).
Qed.

Lemma entities_length (l : list conll) :
  List.length (entities l) = count_begin l.
Proof.
  unfold count_begin.
  induction l as [|c l IH]; simpl; [reflexivity|].
  destruct (is_begin c); simpl; now rewrite IH.
Qed.

Lemma filter_begin_shift (c : conll) (l : list conll) (xs : list nat) :
  filter (begin_at (c :: l)) (map S xs) = map S (filter (begin_at l) xs).
Proof.
  induction xs as [|i xs IH]; simpl; [reflexivity|].
  change (begin_at (c :: l) (S i)) with (begin_at l i).
  destruct (begin_at l i); simpl; now rewrite IH.
Qed.

(** The scan, by positions: the begin positions in ascending order, each
    with its begin token and the inside run right after it. *)
Lemma entities_by_position (l : list conll) :
  entities l
  = map (entity_at l) (filter (begin_at l) (seq 0 (List.length l))).
Proof.
  induction l as [|c l IH]; [reflexivity|].
  cbn [List.length seq entities].
  rewrite <- seq_shift.
  cbn [filter]. change (begin_at (c :: l) 0) with (is_begin c).
  rewrite filter_begin_shift.
  assert (E : map (entity_at (c :: l)) (map S (filter (begin_at l) (seq 0 (List.length l))))
              = entities l).
  { rewrite map_map, IH. apply map_ext. intro i. reflexivity. }
  destruct (is_begin c); cbn [map]; rewrite E; reflexivity.
Qed.

Lemma skipn_nth_error {A : Type} (l : list A) (i : nat) (b : A) :
  nth_error l i = Some b -> skipn i l = b :: skipn (S i) l.
Proof.
  revert i; induction l as [|x l IH]; intros [|i] H; simpl in H;
    try discriminate.
  - injection H as ->. reflexivity.
  - exact (IH i H).
Qed.

Lemma begin_at_nth (l : list conll) (i : nat) :
  begin_at l i = true ->
  exists b, nth_error l i = Some b /\ iob b = "B-Tag".
Proof.
  unfold begin_at. destruct (nth_error l i) as [b|]; [|discriminate].
  intro H. exists b. split; [reflexivity|].
  now apply String.eqb_eq.
Qed.

Lemma entity_at_nth (l : list conll) (i : nat) (b : conll) :
  nth_error l i = Some b -> entity_at l i = entity_of b (skipn (S i) l).
Proof.
  intro H. unfold entity_at. now rewrite (nth_error_nth l i _ H).
Qed.

(** The entity of a begin token sits after the entities of the begin tokens
    before it, and the scan goes on with everything after the begin token. *)
Lemma entities_app_begin (pre post : list conll) (b : conll) :
  is_begin b = true ->
  exists front,
    entities (pre ++ b :: post) = (front ++ entity_of b post :: entities post)%list
    /\ List.length front = count_begin pre.
Proof.
  intro Hb. induction pre as [|c pre [front [E L]]].
  - exists []. simpl. now rewrite Hb.
  - unfold count_begin in *. simpl. destruct (is_begin c).
    + exists (entity_of c (pre ++ b :: post) :: front). simpl.
      now rewrite E, L.
    + exists front. now rewrite E, L.
Qed.

Lemma count_begin_none (l : list conll) :
  (forall c, In c l -> iob c <> "B-Tag") -> count_begin l = 0.
Proof.
  unfold count_begin. induction l as [|c l IH]; intro H; [reflexivity|].
  simpl. destruct (is_begin c) eqn:E.
  - exfalso. apply (H c (or_introl eq_refl)). now apply String.eqb_eq.
  - apply IH. intros d Hd. apply H. now right.
Qed.

(** C1: the chunker returns as many entities as the sequence has triples
    marked ["B-Tag"]; a sequence without begin markers, the empty one among
    them, gives the empty list; a begin token that no inside token follows
    still gives its entity, made of that token alone. *)
Theorem entity_count_is_begin_count :
  (forall l, List.length (stanford_ner_chunks l) = count_begin l)
  /\ (forall l, (forall c, In c l -> iob c <> "B-Tag") ->
       stanford_ner_chunks l = [])
  /\ stanford_ner_chunks [] = []
  /\ (forall w t,
       stanford_ner_chunks [Conll w t "B-Tag"] = [(strip w, normalize t)])
  /\ (forall pre b post,
       iob b = "B-Tag" ->
       (forall c, hd_error post = Some c -> iob c <> "I-Tag") ->
       nth_error (stanford_ner_chunks (pre ++ b :: post)) (count_begin pre)
       = Some (strip (word b), normalize (tag b))).
Proof.
  assert (Hlen : forall l, List.length (stanford_ner_chunks l) = count_begin l).
  { intro l. rewrite stanford_ner_chunks_entities. apply entities_length. }
  split; [exact Hlen|]. split; [|split; [reflexivity|split]].
  - intros l H. apply length_zero_iff_nil.
    rewrite Hlen. now apply count_begin_none.
  - intros w t. reflexivity.
  - intros pre b post Hb Hpost.
    assert (Hb' : is_begin b = true) by (now apply String.eqb_eq).
    rewrite stanford_ner_chunks_entities.
    destruct (entities_app_begin pre post b Hb') as [front [E L]].
    rewrite E, <- L, nth_error_app2, Nat.sub_diag by lia.
    simpl. unfold entity_of. do 3 f_equal.
    destruct post as [|c post]; [reflexivity|].
    simpl. unfold is_inside.
    destruct (iob c =? "I-Tag") eqn:Ec; [|reflexivity].
    exfalso. apply (Hpost c eq_refl). now apply String.eqb_eq.
Qed.

(** C2: the text of every entity the chunker emits is the space-joined
    concatenation of the trimmed tokens of a contiguous, non-empty run of
    the input, in input order, whose first triple is marked ["B-Tag"]. *)
Theorem entity_text_is_contiguous_run (l : list conll) (e : entity) :
  In e (stanford_ner_chunks l) ->
  exists i n b,
    nth_error l i = Some b /\ iob b = "B-Tag"
    /\ i + S n <= List.length l
    /\ fst e
       = join " " (map (fun c => strip (word c)) (firstn (S n) (skipn i l))).
Proof.
  rewrite stanford_ner_chunks_entities, entities_by_position.
  intro H. apply in_map_iff in H. destruct H as [i [He Hi]].
  apply filter_In in Hi. destruct Hi as [_ Hi].
  destruct (begin_at_nth l i Hi) as [b [Hn Hb]].
  exists i, (List.length (take_while is_inside (skipn (S i) l))), b.
  split; [exact Hn|]. split; [exact Hb|].
  pose proof (take_drop_while is_inside (skipn (S i) l)) as Hsplit.
  split.
  - assert (Hlen : List.length (skipn (S i) l) = List.length l - S i)
      by apply length_skipn.
    rewrite <- Hsplit, length_app in Hlen.
    assert (i < List.length l) by (apply nth_error_Some; congruence).
    lia.
  - rewrite <- He, (entity_at_nth l i b Hn). unfold entity_of, run_text.
    cbn [fst]. rewrite (skipn_nth_error l i b Hn). cbn [firstn].
    now rewrite firstn_take_while.
Qed.

(** The run of the specification's example gives its one entity. *)
Example sample_chunks_entities :
  stanford_ner_chunks sample_chunks = [("Acme Corp", "ORG")].
Proof. reflexivity. Qed.

Lemma entity_text_is_contiguous_run_witness :
  exists i n b,
    nth_error sample_chunks i = Some b /\ iob b = "B-Tag"
    /\ i + S n <= List.length sample_chunks
    /\ fst ("Acme Corp", "ORG")
       = join " " (map (fun c => strip (word c))
                     (firstn (S n) (skipn i sample_chunks))).
Proof.
  apply (entity_text_is_contiguous_run sample_chunks ("Acme Corp", "ORG")).
  simpl. left. reflexivity.
Defined.

(** C4: on a begin marker at position [i] the lookahead appends exactly the
    tokens of the maximal run of ["I-Tag"] triples right after [i]: the run
    is followed by nothing or by a triple that is not ["I-Tag"], which stays
    in the sequence; the outer scan goes on with the whole tail after [i],
    so the result lists the entities of the begin positions in ascending
    order. *)
Theorem lookahead_takes_maximal_inside_run (l : list conll) :
  stanford_ner_chunks l
  = map (entity_at l) (filter (begin_at l) (seq 0 (List.length l)))
  /\ (forall i b, nth_error l i = Some b ->
       entity_at l i
       = (merge_itags (strip (word b)) (skipn (S i) l), normalize (tag b))
       /\ merge_itags (strip (word b)) (skipn (S i) l)
          = join " " (map (fun c => strip (word c))
                        (b :: take_while is_inside (skipn (S i) l)))
       /\ skipn (S i) l
          = (take_while is_inside (skipn (S i) l)
             ++ drop_while is_inside (skipn (S i) l))%list
       /\ Forall (fun c => iob c = "I-Tag")
            (take_while is_inside (skipn (S i) l))
       /\ (forall c, hd_error (drop_while is_inside (skipn (S i) l)) = Some c ->
            iob c <> "I-Tag"))
  /\ (forall c r,
       stanford_ner_chunks (c :: r)
       = ((if iob c =? "B-Tag"
           then [(merge_itags (strip (word c)) r, normalize (tag c))]
           else []) ++ stanford_ner_chunks r)%list).
Proof.
  assert (M : forall b rest,
             merge_itags (strip (word b)) rest
             = run_text (b :: take_while is_inside rest)).
  { intros b rest. change (strip (word b)) with (run_text [b]).
    now rewrite merge_itags_run. }
  split; [|split].
  - rewrite stanford_ner_chunks_entities. apply entities_by_position.
  - intros i b Hn. split; [|split; [|split; [|split]]].
    + rewrite (entity_at_nth l i b Hn), M. reflexivity.
    + apply M.
    + symmetry. apply take_drop_while.
    + eapply Forall_impl; [|apply take_while_all].
      intros c Hc. now apply String.eqb_eq.
    + intros c Hc. apply drop_while_head in Hc.
      now apply String.eqb_neq.
  - intros c r. rewrite !stanford_ner_chunks_entities, M. simpl.
    unfold is_begin. destruct (iob c =? "B-Tag"); reflexivity.
Qed.

(** C5: the entity emitted for a begin token tagged ["ORGANIZATION"] has
    the category ["ORG"]; for a begin token with any other tag it keeps
    that tag. *)
Theorem organization_becomes_org (l : list conll) (i : nat) (b : conll) :
  nth_error l i = Some b -> iob b = "B-Tag" ->
  exists text category,
    nth_error (stanford_ner_chunks l) (count_begin (firstn i l))
    = Some (text, category)
    /\ text = merge_itags (strip (word b)) (skipn (S i) l)
    /\ (tag b = "ORGANIZATION" -> category = "ORG")
    /\ (tag b <> "ORGANIZATION" -> category = tag b).
Proof.
  intros Hn Hb.
  assert (Hb' : is_begin b = true) by (now apply String.eqb_eq).
  exists (merge_itags (strip (word b)) (skipn (S i) l)), (normalize (tag b)).
  split; [|split; [reflexivity|split]].
  - rewrite stanford_ner_chunks_entities.
    rewrite <- (firstn_skipn i l) at 1.
    rewrite (skipn_nth_error l i b Hn).
    destruct (entities_app_begin (firstn i l) (skipn (S i) l) b Hb')
      as [front [E L]].
    rewrite E, <- L, nth_error_app2, Nat.sub_diag by lia.
    simpl. unfold entity_of.
    change (strip (word b)) with (run_text [b]).
    now rewrite merge_itags_run.
  - intro H. unfold normalize. now rewrite H.
  - intro H. unfold normalize. apply String.eqb_neq in H. now rewrite H.
Qed.

Lemma organization_becomes_org_witness :
  exists text category,
    nth_error (stanford_ner_chunks sample_chunks)
      (count_begin (firstn 0 sample_chunks))
    = Some (text, category)
    /\ text = merge_itags (strip (word (Conll "Acme" "ORGANIZATION" "B-Tag")))
               (skipn 1 sample_chunks)
    /\ (tag (Conll "Acme" "ORGANIZATION" "B-Tag") = "ORGANIZATION" ->
        category = "ORG")
    /\ (tag (Conll "Acme" "ORGANIZATION" "B-Tag") <> "ORGANIZATION" ->
        category = tag (Conll "Acme" "ORGANIZATION" "B-Tag")).
Proof.
  apply (organization_becomes_org sample_chunks 0
           (Conll "Acme" "ORGANIZATION" "B-Tag")); reflexivity.
Defined.

(** *** Inside markers that no begin marker opens *)

Lemma run_from_cons (st : bool) (c : conll) (pre : list conll) :
  run_from st (c :: pre)
  = run_from (if is_begin c then true else if is_inside c then st else false)
      pre.
Proof. reflexivity. Qed.

Lemma run_from_app (st : bool) (a b : list conll) :
  run_from st (a ++ b) = run_from (run_from st a) b.
Proof. apply fold_left_app. Qed.

Lemma run_from_mono (pre : list conll) :
  run_from true pre = false -> run_from false pre = false.
Proof.
  induction pre as [|c pre IH]; [discriminate|].
  rewrite !run_from_cons.
  destruct (is_begin c); [trivial|]. destruct (is_inside c); trivial.
Qed.

Lemma run_from_all_inside (run : list conll) :
  forallb is_inside run = true -> run_from true run = true.
Proof.
  induction run as [|c run IH]; [reflexivity|].
  simpl forallb. rewrite run_from_cons. intro H.
  apply andb_true_iff in H. destruct H as [Hc Hr].
  rewrite Hc. destruct (is_begin c); now apply IH.
Qed.

(** A run that is closed at the end of [pre] ended inside [pre]. *)
Lemma take_while_closed (pre a a' : list conll) :
  run_from true pre = false ->
  take_while is_inside (pre ++ a) = take_while is_inside (pre ++ a').
Proof.
  induction pre as [|c pre IH]; [discriminate|].
  rewrite run_from_cons. simpl.
  destruct (is_inside c); [|reflexivity].
  destruct (is_begin c); intro H; now rewrite (IH H).
Qed.

Lemma take_while_long {A : Type} (p : A -> bool) (a b : list A) :
  List.length a < List.length (take_while p (a ++ b)) -> forallb p a = true.
Proof.
  induction a as [|x a IH]; [reflexivity|].
  simpl. destruct (p x); simpl; intro H; [apply IH|]; lia.
Qed.

Lemma orphan_removed (pre post : list conll) (x : conll) :
  is_inside x = true -> run_from false pre = false ->
  entities (pre ++ x :: post) = entities (pre ++ post).
Proof.
  intro Hx. induction pre as [|c pre IH].
  - intros _. simpl. now rewrite (inside_not_begin x Hx).
  - rewrite run_from_cons. simpl.
    destruct (is_begin c) eqn:Eb.
    + intro H. unfold entity_of.
      rewrite (take_while_closed pre (x :: post) post H).
      now rewrite (IH (run_from_mono pre H)).
    + destruct (is_inside c); exact IH.
Qed.

(** C6: a triple marked ["I-Tag"] that no ["B-Tag"] opens (going back
    through the ["I-Tag"] triples right before it) gives no entity and is
    part of none: the result is the one of the sequence without that triple,
    and the tokens of no emitted entity reach its position. *)
Theorem orphan_inside_is_ignored (pre post : list conll) (x : conll) :
  iob x = "I-Tag" -> run_open pre = false ->
  stanford_ner_chunks (pre ++ x :: post) = stanford_ner_chunks (pre ++ post)
  /\ (forall i, begin_at (pre ++ x :: post) i = true ->
       ~ (i <= List.length pre
          <= i + List.length
                 (take_while is_inside (skipn (S i) (pre ++ x :: post))))).
Proof.
  intros Hx Hpre.
  assert (Hx' : is_inside x = true) by (now apply String.eqb_eq).
  split.
  - rewrite !stanford_ner_chunks_entities. now apply orphan_removed.
  - intros i Hi [H1 H2].
    destruct (begin_at_nth _ i Hi) as [b [Hn Hb]].
    destruct (Nat.eq_dec i (List.length pre)) as [->|Hne].
    + rewrite nth_error_app2, Nat.sub_diag in Hn by lia.
      injection Hn as <-. rewrite Hx in Hb. discriminate.
    + assert (Hlt : i < List.length pre) by lia.
      rewrite nth_error_app1 in Hn by exact Hlt.
      rewrite skipn_app in H2.
      replace (S i - List.length pre) with 0 in H2 by lia.
      rewrite skipn_0 in H2.
      assert (Hall : forallb is_inside (skipn (S i) pre) = true).
      { apply (take_while_long is_inside _ (x :: post)).
        rewrite length_skipn. lia. }
      unfold run_open in Hpre.
      rewrite <- (firstn_skipn i pre), (skipn_nth_error pre i b Hn) in Hpre.
      rewrite run_from_app, run_from_cons in Hpre.
      assert (Hb' : is_begin b = true) by (now apply String.eqb_eq).
      rewrite Hb', (run_from_all_inside _ Hall) in Hpre. discriminate.
Qed.

Lemma orphan_inside_is_ignored_witness :
  stanford_ner_chunks
    (orphan_chunks_pre ++ Conll "Doe" "PERSON" "I-Tag" :: [Conll "MIT" "ORGANIZATION" "B-Tag"])
  = stanford_ner_chunks (orphan_chunks_pre ++ [Conll "MIT" "ORGANIZATION" "B-Tag"])
  /\ (forall i,
       begin_at
         (orphan_chunks_pre ++ Conll "Doe" "PERSON" "I-Tag" :: [Conll "MIT" "ORGANIZATION" "B-Tag"])
         i = true ->
       ~ (i <= List.length orphan_chunks_pre
          <= i + List.length
                 (take_while is_inside
                    (skipn (S i)
                       (orphan_chunks_pre ++ Conll "Doe" "PERSON" "I-Tag"
                          :: [Conll "MIT" "ORGANIZATION" "B-Tag"]))))).
Proof.
  apply (orphan_inside_is_ignored orphan_chunks_pre
           [Conll "MIT" "ORGANIZATION" "B-Tag"] (Conll "Doe" "PERSON" "I-Tag"));
    reflexivity.
Defined.

(** The malformed sequence above gives the entities of its two begin
    markers and nothing for ["Doe"]. *)
Example orphan_chunks_entities :
  stanford_ner_chunks
    (orphan_chunks_pre ++ Conll "Doe" "PERSON" "I-Tag" :: [Conll "MIT" "ORGANIZATION" "B-Tag"])
  = [("Jane", "PERSON"); ("MIT", "ORG")].
Proof. reflexivity. Qed.

(** *** Runs of mixed labels *)

(** C3: the claim that every token merged into an entity carries the label
    of the entity's begin token fails on the code.  The grammar of line 88
    puts a person-tagged run and the organization-tagged token right after
    it into one chunk, the inner loop tests the marker only, and the entity
    of the begin token ["John"] takes in ["MIT"], tagged ["ORGANIZATION"],
    under the category ["PERSON"]. *)
Theorem mixed_labels_merged_into_one_entity :
  tree2conlltags_parse mixed_tokens
  = [Conll "John" "PERSON" "B-Tag"; Conll "Smith" "PERSON" "I-Tag";
     Conll "MIT" "ORGANIZATION" "I-Tag"; Conll "invites" "O" "O"]
  /\ stanford_ner_chunks (tree2conlltags_parse mixed_tokens)
     = [("John Smith MIT", "PERSON")]
  /\ ~ (forall l i b c,
          nth_error l i = Some b -> iob b = "B-Tag" ->
          In c (take_while is_inside (skipn (S i) l)) -> tag c = tag b).
Proof.
  split; [reflexivity|]. split; [reflexivity|].
  intro H.
  specialize (H (tree2conlltags_parse mixed_tokens) 0
                (Conll "John" "PERSON" "B-Tag")
                (Conll "MIT" "ORGANIZATION" "I-Tag") eq_refl eq_refl).
  simpl in H. discriminate H. right. left. reflexivity.
Qed.

End ChunkerFacts.

(** ** The output step *)

Module OutputFacts.
Import Chunker Output.

Lemma leb_refl (a : string) : String.leb a a = true.
Proof. destruct (String.leb_total a a); assumption. Qed.

Lemma leb_trans (a b c : string) :
  String.leb a b = true -> String.leb b c = true -> String.leb a c = true.
Proof.
  unfold String.leb.
  revert b c; induction a as [|x a IH]; intros [|y b] [|z c]; simpl;
    try easy.
  unfold Ascii.compare.
  destruct (N.compare_spec (N_of_ascii x) (N_of_ascii y));
    destruct (N.compare_spec (N_of_ascii y) (N_of_ascii z));
    destruct (N.compare_spec (N_of_ascii x) (N_of_ascii z));
    try lia; try easy; apply IH.
Qed.

Lemma sort_sorted (l : list string) : sorted (sort l).
Proof.
  apply StringSort.StronglySorted_sort.
  intros a b c. apply leb_trans.
Qed.

Lemma sort_permutation (l : list string) : Permutation (sort l) l.
Proof. symmetry. apply StringSort.Permuted_sort. Qed.

(** A list has one sorted arrangement only. *)
Lemma sorted_unique (l1 l2 : list string) :
  Permutation l1 l2 -> sorted l1 -> sorted l2 -> l1 = l2.
Proof.
  revert l2; induction l1 as [|a l1 IH]; intros l2 HP H1 H2.
  - now apply Permutation_nil in HP.
  - destruct l2 as [|b l2].
    + symmetry in HP. now apply Permutation_nil in HP.
    + apply StronglySorted_inv in H1. destruct H1 as [S1 F1].
      apply StronglySorted_inv in H2. destruct H2 as [S2 F2].
      rewrite Forall_forall in F1, F2.
      assert (Hab : String.leb a b = true).
      { assert (Hin : In b (a :: l1))
          by (apply (Permutation_in b (Permutation_sym HP)); now left).
        destruct Hin as [->|Hin]; [apply leb_refl | now apply F1]. }
      assert (Hba : String.leb b a = true).
      { assert (Hin : In a (b :: l2))
          by (apply (Permutation_in a HP); now left).
        destruct Hin as [->|Hin]; [apply leb_refl | now apply F2]. }
      assert (a = b) by (now apply String.leb_antisym). subst b.
      f_equal. apply IH; [eapply Permutation_cons_inv; exact HP | | ];
        assumption.
Qed.

(** The loop of lines 150-154 appends, to each accumulator, the texts of
    its category in input order. *)
Lemma fold_partition_step (result : list entity) (names affiliations : list string) :
  fold_left partition_step result (names, affiliations)
  = ((names ++ texts_of "PERSON" result)%list,
     (affiliations ++ texts_of "ORG" result)%list).
Proof.
  revert names affiliations; induction result as [|e result IH];
    intros names affiliations.
  - simpl. now rewrite !app_nil_r.
  - cbn [fold_left]. unfold partition_step at 2. unfold texts_of. cbn [filter].
    destruct (snd e =? "ORG"), (snd e =? "PERSON");
      rewrite IH; unfold texts_of; cbn [map]; rewrite <- ?app_assoc;
      reflexivity.
Qed.

Lemma names_affiliations_sort (result : list entity) :
  names_affiliations result
  = (sort (texts_of "PERSON" result), sort (texts_of "ORG" result)).
Proof.
  unfold names_affiliations. now rewrite fold_partition_step.
Qed.

(** C7: the output step puts into [names] exactly the texts of the
    ["PERSON"] entities and into [affiliations] exactly those of the ["ORG"]
    entities, each text as often as it occurs, and nothing of any other
    category; both lists are in ascending lexicographic order, which fixes
    them. *)
Theorem partition_sorts_and_keeps_duplicates (result : list entity) :
  Permutation (fst (names_affiliations result)) (texts_of "PERSON" result)
  /\ Permutation (snd (names_affiliations result)) (texts_of "ORG" result)
  /\ sorted (fst (names_affiliations result))
  /\ sorted (snd (names_affiliations result))
  /\ (forall t,
       count_occ string_dec (fst (names_affiliations result)) t
       = count_occ string_dec (texts_of "PERSON" result) t
       /\ count_occ string_dec (snd (names_affiliations result)) t
          = count_occ string_dec (texts_of "ORG" result) t)
  /\ (forall l, Permutation l (texts_of "PERSON" result) -> sorted l ->
       l = fst (names_affiliations result))
  /\ (forall l, Permutation l (texts_of "ORG" result) -> sorted l ->
       l = snd (names_affiliations result))
  /\ names_affiliations
       [("Jane Doe", "PERSON"); ("MIT", "ORG"); ("Ann", "PERSON")]
     = (["Ann"; "Jane Doe"], ["MIT"])
  /\ names_affiliations
       [("MIT", "ORG"); ("Paris", "GPE"); ("Ann", "PERSON"); ("MIT", "ORG")]
     = (["Ann"], ["MIT"; "MIT"]).
Proof.
  rewrite names_affiliations_sort. cbn [fst snd].
  repeat split.
  - apply sort_permutation.
  - apply sort_permutation.
  - apply sort_sorted.
  - apply sort_sorted.
  - apply Permutation_count_occ, sort_permutation.
  - apply Permutation_count_occ, sort_permutation.
  - intros l HP HS. apply sorted_unique; [|exact HS|apply sort_sorted].
    rewrite HP. symmetry. apply sort_permutation.
  - intros l HP HS. apply sorted_unique; [|exact HS|apply sort_sorted].
    rewrite HP. symmetry. apply sort_permutation.
Qed.

End OutputFacts.

(** ** The program *)

Module ProgramFacts.
Import PyStr Chunker ChunkerFacts Output OutputFacts Program Report.

Lemma tuple_contains_In (x : string) (u : ParseResult) :
  tuple_contains x u = true <-> In x (components u).
Proof.
  unfold tuple_contains. rewrite existsb_exists. split.
  - intros [c [Hc E]]. apply String.eqb_eq in E. now subst c.
  - intro H. exists x. split; [exact H | apply String.eqb_refl].
Qed.

Lemma main_rejects (W : World) (args : Args) :
  tuple_contains "wikicfp.com" (urlparse W (arg_url args)) = false ->
  run W args = rejected.
Proof.
  intro H. unfold run, main. rewrite H. reflexivity.
Qed.

Lemma main_accepts (W : World) (args : Args) :
  tuple_contains "wikicfp.com" (urlparse W (arg_url args)) = true ->
  main W args = process W (urlparse W (arg_url args)) (arg_model args).
Proof.
  intro H. unfold main. rewrite H. reflexivity.
Qed.








(** Both ways of being rejected, on whole command lines. *)
Example sample_runs_rejected :
  execute (sample_world example_org (inr "<html></html>") None)
    ["--url"; "https://example.org/"]
  = (inl (SystemExit 0), ["Please enter a valid URL" ++ nl])
  /\ execute (sample_world wikicfp_home (inr "<html></html>") None)
       ["--url"; "http://wikicfp.com"; "--model"; "m2"]
     = (inl (SystemExit 0), ["Please enter a valid URL" ++ nl]).
Proof. split; reflexivity. Qed.

(** A page with its section goes through to the two printed blocks. *)
Example sample_run_prints_both_blocks :
  run (sample_world wikicfp_home (inr "<html>...</html>") (Some ["text"]))
    {| arg_url := "http://wikicfp.com/cfp/x"; arg_model := m1 |}
  = (inr tt,
     ["***Names***" ++ nl ++ " Jane Doe " ++ nl ++ nl;
      "***Affiliations***" ++ nl ++ " MIT" ++ nl]).
Proof. reflexivity. Qed.

(** The Stanford path on a name that an affiliation follows directly: one
    entity, filed under the names. *)
Example sample_run_stanford :
  run (sample_world wikicfp_home (inr "<html>...</html>") (Some ["text"]))
    {| arg_url := "http://wikicfp.com/cfp/x"; arg_model := m2 |}
  = (inr tt,
     ["***Names***" ++ nl ++ " John Smith MIT " ++ nl ++ nl;
      "***Affiliations***" ++ nl ++ " " ++ nl]).
Proof. reflexivity. Qed.

(** An exception of the HTTP client is not caught. *)
Example sample_run_unreachable :
  run (sample_world wikicfp_home (inl "ConnectionError") None)
    {| arg_url := "http://wikicfp.com/cfp/x"; arg_model := m1 |}
  = (inl (Uncaught "ConnectionError"), []).
Proof. reflexivity. Qed.

(** C10: the check lets the run go on exactly when one of the six
    components of the parsed URL is the string ["wikicfp.com"], and rejects
    it otherwise, whatever the URL contains: a parsed URL with the network
    location ["www.wikicfp.com"] is rejected. *)
Theorem url_check_is_component_membership (W : World) (args : Args) :
  (In "wikicfp.com" (components (urlparse W (arg_url args))) ->
   main W args = process W (urlparse W (arg_url args)) (arg_model args))
  /\ (~ In "wikicfp.com" (components (urlparse W (arg_url args))) ->
      run W args = (inl (SystemExit 0), ["Please enter a valid URL" ++ nl]))
  /\ (tuple_contains "wikicfp.com" (urlparse W (arg_url args)) = true
      <-> (scheme (urlparse W (arg_url args)) = "wikicfp.com"
           \/ netloc (urlparse W (arg_url args)) = "wikicfp.com"
           \/ path (urlparse W (arg_url args)) = "wikicfp.com"
           \/ params (urlparse W (arg_url args)) = "wikicfp.com"
           \/ query (urlparse W (arg_url args)) = "wikicfp.com"
           \/ fragment (urlparse W (arg_url args)) = "wikicfp.com"))
  /\ (urlparse W (arg_url args) = www_wikicfp_event ->
      run W args = (inl (SystemExit 0), ["Please enter a valid URL" ++ nl])).
Proof.
  split; [|split; [|split]].
  - intro H. apply main_accepts. now apply tuple_contains_In.
  - intro H. apply main_rejects.
    destruct (tuple_contains "wikicfp.com" (urlparse W (arg_url args))) eqn:E;
      [|reflexivity].
    exfalso. apply H. now apply tuple_contains_In.
  - rewrite tuple_contains_In. unfold components. simpl.
    intuition congruence.
  - intro H. apply main_rejects. now rewrite H.
Qed.

(** *** The categories the two paths return *)

Lemma fold_spacy_filter (ne_chunks : list (string * string)) (acc : list entity) :
  fold_left
    (fun result chunk =>
       if (snd chunk =? "ORG") || (snd chunk =? "PERSON")
       then (result ++ [(strip (fst chunk), snd chunk)])%list
       else result)
    ne_chunks acc
  = (acc ++ map (fun chunk => (strip (fst chunk), snd chunk))
              (filter (fun chunk => (snd chunk =? "ORG") || (snd chunk =? "PERSON"))
                 ne_chunks))%list.
Proof.
  revert acc; induction ne_chunks as [|c l IH]; intro acc; simpl.
  - now rewrite app_nil_r.
  - destruct ((snd c =? "ORG") || (snd c =? "PERSON")); rewrite IH;
      [now rewrite <- app_assoc | reflexivity].
Qed.

Lemma spacy_ner_categories (W : World) (cfp : string) (e : entity) :
  In e (spacy_ner W cfp) -> snd e = "PERSON" \/ snd e = "ORG".
Proof.
  unfold spacy_ner. rewrite fold_spacy_filter. simpl.
  intro H. apply in_map_iff in H. destruct H as [c [<- Hc]].
  apply filter_In in Hc. destruct Hc as [_ Hc].
  apply orb_true_iff in Hc. simpl.
  destruct Hc as [Hc|Hc]; apply String.eqb_eq in Hc; auto.
Qed.

Lemma chunks_categories (l : list conll) (e : entity) :
  (forall c, In c l -> iob c = "B-Tag" ->
             tag c = "ORGANIZATION" \/ tag c = "PERSON") ->
  In e (stanford_ner_chunks l) -> snd e = "PERSON" \/ snd e = "ORG".
Proof.
  intros Htag H.
  rewrite stanford_ner_chunks_entities, entities_by_position in H.
  apply in_map_iff in H. destruct H as [i [<- Hi]].
  apply filter_In in Hi. destruct Hi as [_ Hi].
  destruct (begin_at_nth l i Hi) as [b [Hn Hb]].
  rewrite (entity_at_nth l i b Hn). unfold entity_of. cbn [snd].
  destruct (Htag b (nth_error_In l i Hn) Hb) as [E|E]; rewrite E; auto.
Qed.

Lemma conlltags_In (inside : bool) (tokens : list (string * string)) (c : conll) :
  In c (conlltags inside tokens) ->
  In (word c, tag c) tokens
  /\ (iob c <> "O" -> tag_in_grammar (tag c) = true).
Proof.
  revert inside; induction tokens as [|[w t] tokens IH]; intro inside;
    simpl; [tauto|].
  destruct (tag_in_grammar t) eqn:E; simpl; intros [<-|H].
  - simpl. auto.
  - destruct (IH _ H). auto.
  - simpl. split; [auto | congruence].
  - destruct (IH _ H). auto.
Qed.

Lemma texts_of_cover (result : list entity) :
  (forall e, In e result -> snd e = "PERSON" \/ snd e = "ORG") ->
  List.length (texts_of "PERSON" result) + List.length (texts_of "ORG" result)
  = List.length result.
Proof.
  unfold texts_of. induction result as [|e result IH]; intro H;
    [reflexivity|].
  assert (IH' := IH (fun e' He' => H e' (or_intror He'))).
  simpl. destruct (H e (or_introl eq_refl)) as [E|E]; rewrite E; simpl;
    rewrite ?length_map in *; simpl; lia.
Qed.

(** Within the label set of the classifier the grammar of line 88 accepts
    two labels only. *)
Lemma muc7_in_grammar (t : string) :
  In t muc7_labels -> tag_in_grammar t = true ->
  t = "ORGANIZATION" \/ t = "PERSON".
Proof.
  unfold muc7_labels. simpl.
  intros [<-|[<-|[<-|[<-|[<-|[<-|[<-|[<-|[]]]]]]]]]; simpl; intro H;
    auto; discriminate H.
Qed.

(** C9: every entity of either path has the category ["PERSON"] or ["ORG"].
    [spacy_ner] keeps spans of these two labels only.  The tagger of
    [stanford_ner] labels tokens within the label set of its classifier,
    where the only label that starts with ["PERSON"] is ["PERSON"] itself:
    when the chunker groups only tokens tagged ["ORGANIZATION"] or with a
    tag starting with ["PERSON"], as the grammar of line 88 does, every
    entity comes out as ["PERSON"] or ["ORG"].  On such results the output
    step drops nothing. *)
Theorem ner_categories_person_or_org (W : World) (cfp : string) :
  (forall e, In e (spacy_ner W cfp) -> snd e = "PERSON" \/ snd e = "ORG")
  /\ (forall l : list conll,
        (forall c, In c l -> In (tag c) muc7_labels) ->
        (forall c, In c l -> iob c <> "O" ->
                   tag c = "ORGANIZATION"
                   \/ startswith (tag c) "PERSON" = true) ->
        forall e, In e (stanford_ner_chunks l) ->
                  snd e = "PERSON" \/ snd e = "ORG")
  /\ ((forall t, In t (st_tag W (word_tokenize W cfp)) ->
                  In (snd t) muc7_labels) ->
      forall e, In e (stanford_ner W cfp) ->
                snd e = "PERSON" \/ snd e = "ORG")
  /\ (forall result : list entity,
        (forall e, In e result -> snd e = "PERSON" \/ snd e = "ORG") ->
        List.length (fst (names_affiliations result))
        + List.length (snd (names_affiliations result))
        = List.length result).
Proof.
  split; [|split; [|split]].
  - apply spacy_ner_categories.
  - intros l Hset Hgroup e. apply chunks_categories. intros c Hc Hb.
    apply muc7_in_grammar; [now apply Hset|].
    unfold tag_in_grammar. apply orb_true_iff.
    destruct (Hgroup c Hc) as [H|H].
    + rewrite Hb. discriminate.
    + left. now apply String.eqb_eq.
    + now right.
  - intros Hset e. unfold stanford_ner, tree2conlltags_parse.
    apply chunks_categories. intros c Hc Hb.
    destruct (conlltags_In _ _ _ Hc) as [Hin Hg].
    apply muc7_in_grammar.
    + exact (Hset _ Hin).
    + apply Hg. rewrite Hb. discriminate.
  - intros result H. rewrite names_affiliations_sort. cbn [fst snd].
    rewrite !(Permutation_length (sort_permutation _)).
    now apply texts_of_cover.
Qed.

(** The tagger output of the sample world lies in the label set, and its
    Stanford path returns one entity, a ["PERSON"]. *)
Example sample_world_within_label_set :
  (forall t,
     In t (st_tag (sample_world wikicfp_home (inr "") None)
             (word_tokenize (sample_world wikicfp_home (inr "") None) "")) ->
     In (snd t) muc7_labels)
  /\ stanford_ner (sample_world wikicfp_home (inr "") None) ""
     = [("John Smith MIT", "PERSON")].
Proof.
  split; [|reflexivity].
  simpl. intros t [<-|[<-|[<-|[<-|[]]]]]; simpl; auto 10.
Qed.

End ProgramFacts.

(** * Further properties of the code *)

(** ** Trimming and replacing *)

Module TextFacts.
Import PyStr PyStrFacts Report.

Lemma lstrip_chars (s : string) (c : ascii) :
  In c (list_ascii_of_string (lstrip s)) -> In c (list_ascii_of_string s).
Proof.
  induction s as [|a s IH]; simpl; [tauto|].
  destruct (is_space a); simpl; auto.
Qed.

Lemma rstrip_chars (s : string) (c : ascii) :
  In c (list_ascii_of_string (rstrip s)) -> In c (list_ascii_of_string s).
Proof.
  induction s as [|a s IH]; simpl; [tauto|].
  destruct (rstrip s) as [|d r].
  - destruct (is_space a); simpl; tauto.
  - simpl in *. tauto.
Qed.

Lemma strip_chars (s : string) (c : ascii) :
  In c (list_ascii_of_string (strip s)) -> In c (list_ascii_of_string s).
Proof.
  intro H. apply lstrip_chars, rstrip_chars, H.
Qed.

Lemma replace_char_chars (old : ascii) (s : string) (c : ascii) :
  In c (list_ascii_of_string (replace_char old s)) ->
  c = " "%char \/ (In c (list_ascii_of_string s) /\ c <> old).
Proof.
  induction s as [|a s IH]; simpl; [tauto|].
  intros [H|H].
  - destruct (Ascii.eqb a old) eqn:E; [left; congruence|].
    right. apply Ascii.eqb_neq in E. subst c. auto.
  - destruct (IH H) as [?|[? ?]]; auto.
Qed.

Lemma ascii_only_chars (s : string) (c : ascii) :
  In c (list_ascii_of_string (ascii_only s)) ->
  In c (list_ascii_of_string s) /\ nat_of_ascii c < 128.
Proof.
  induction s as [|a s IH]; simpl; [tauto|].
  destruct (nat_of_ascii a <? 128)%nat eqn:E; simpl.
  - intros [<-|H]; [apply Nat.ltb_lt in E; auto | destruct (IH H); auto].
  - intro H. destruct (IH H); auto.
Qed.

Lemma is_space_replaced (old c : ascii) :
  is_space old = true ->
  is_space (if Ascii.eqb c old then " "%char else c) = is_space c.
Proof.
  intro H. destruct (Ascii.eqb c old) eqn:E; [|reflexivity].
  apply Ascii.eqb_eq in E. subst c. now rewrite H.
Qed.

Lemma lstrip_replace_char (old : ascii) (s : string) :
  is_space old = true ->
  lstrip (replace_char old s) = replace_char old (lstrip s).
Proof.
  intro H. induction s as [|a s IH]; simpl; [reflexivity|].
  rewrite (is_space_replaced old a H).
  destruct (is_space a); [exact IH | reflexivity].
Qed.

Lemma rstrip_replace_char (old : ascii) (s : string) :
  is_space old = true ->
  rstrip (replace_char old s) = replace_char old (rstrip s).
Proof.
  intro H. induction s as [|a s IH]; simpl; [reflexivity|].
  rewrite IH, (is_space_replaced old a H).
  destruct (rstrip s) as [|d r]; simpl.
  - destruct (is_space a); reflexivity.
  - reflexivity.
Qed.

(** Replacing a whitespace character by a space and trimming commute. *)
Lemma strip_replace_char (old : ascii) (s : string) :
  is_space old = true ->
  strip (replace_char old s) = replace_char old (strip s).
Proof.
  intro H. unfold strip.
  now rewrite lstrip_replace_char, rstrip_replace_char.
Qed.

Lemma lstrip_length (s : string) : String.length (lstrip s) <= String.length s.
Proof.
  induction s as [|a s IH]; simpl; [lia|].
  destruct (is_space a); simpl; lia.
Qed.

(** A string that [lstrip] leaves alone does not start with whitespace. *)
Lemma lstrip_fixed_head (a : ascii) (s : string) :
  lstrip (String a s) = String a s -> is_space a = false.
Proof.
  simpl. destruct (is_space a); [|reflexivity].
  intro H. pose proof (lstrip_length s) as L. rewrite H in L.
  simpl in L. lia.
Qed.

Lemma lstrip_append (a b : string) :
  a <> "" -> lstrip a = a -> lstrip (a ++ b) = a ++ b.
Proof.
  destruct a as [|c a]; [congruence|]. intros _ H.
  apply lstrip_fixed_head in H. simpl. now rewrite H.
Qed.

Lemma append_nonempty (a b : string) : b <> "" -> a ++ b <> "".
Proof.
  destruct a; simpl; [trivial | discriminate].
Qed.

Lemma rstrip_append (a b : string) :
  rstrip b <> "" -> rstrip (a ++ b) = a ++ rstrip b.
Proof.
  intro H. induction a as [|c a IH]; simpl; [reflexivity|].
  rewrite IH. destruct (a ++ rstrip b) eqn:E; [|reflexivity].
  exfalso. exact (append_nonempty a (rstrip b) H E).
Qed.

Lemma tight_strip (s : string) : strip s <> "" -> tight (strip s).
Proof.
  intro H. split; [exact H|]. split.
  - apply lstrip_rstrip.
  - apply rstrip_idem.
Qed.

Lemma tight_joined (a b : string) :
  tight a -> tight b -> tight (a ++ " " ++ b).
Proof.
  intros [Ha [La Ra]] [Hb [Lb Rb]].
  assert (Rb' : rstrip (" " ++ b) = " " ++ b).
  { rewrite rstrip_append by (now rewrite Rb). now rewrite Rb. }
  split; [|split].
  - apply append_nonempty. discriminate.
  - now apply lstrip_append.
  - rewrite rstrip_append by (rewrite Rb'; discriminate).
    now rewrite Rb'.
Qed.

Lemma tight_stripped (s : string) : tight s -> strip s = s.
Proof.
  intros [_ [L R]]. unfold strip. now rewrite L, R.
Qed.

Lemma tight_join (x : string) (l : list string) :
  Forall tight (x :: l) -> tight (join " " (x :: l)).
Proof.
  revert x; induction l as [|y l IH]; intros x H.
  - simpl. now inversion H.
  - rewrite join_cons2. inversion H as [|? ? Hx Hl]; subst.
    apply tight_joined; [exact Hx | now apply IH].
Qed.

End TextFacts.

(** ** [get_cfp] and the ways a run ends *)

Module RunFacts.
Import PyStr PyStrFacts TextFacts Chunker Output Program Report.

Lemma get_cfp_section (W : World) (url html : string) (texts out : list string) :
  requests_get W url = inr html -> soup_find_cfp W html = Some texts ->
  get_cfp W url out = (inr (clean_text texts), out).
Proof.
  intros Hg Hf. unfold get_cfp. now rewrite Hg, Hf.
Qed.

Lemma clean_text_chars (texts : list string) (c : ascii) :
  In c (list_ascii_of_string (clean_text texts)) ->
  nat_of_ascii c < 128 /\ c <> newline /\ c <> tab.
Proof.
  unfold clean_text. intro H.
  apply replace_char_chars in H. destruct H as [->|[H Ht]].
  { repeat split; [now apply Nat.ltb_lt | discriminate | discriminate]. }
  apply replace_char_chars in H. destruct H as [->|[H Hn]].
  { repeat split; [now apply Nat.ltb_lt | discriminate | discriminate]. }
  apply strip_chars, ascii_only_chars in H. destruct H as [_ H].
  auto.
Qed.

Lemma clean_text_trimmed (texts : list string) :
  strip (clean_text texts) = clean_text texts.
Proof.
  unfold clean_text.
  rewrite !strip_replace_char by reflexivity.
  now rewrite strip_idem.
Qed.

(** When the page has its section, [get_cfp] prints nothing and returns a
    text of ASCII characters without any newline or tab. *)
Theorem get_cfp_returns_ascii_without_newline_or_tab
  (W : World) (url html : string) (texts out : list string) :
  requests_get W url = inr html -> soup_find_cfp W html = Some texts ->
  exists cfp,
    get_cfp W url out = (inr cfp, out)
    /\ forall c, In c (list_ascii_of_string cfp) ->
                 nat_of_ascii c < 128 /\ c <> newline /\ c <> tab.
Proof.
  intros Hg Hf. exists (clean_text texts). split.
  - now apply get_cfp_section with (html := html).
  - apply clean_text_chars.
Qed.

(** The text [get_cfp] returns has no whitespace at either end: trimming it
    again changes nothing, although the replacements come after the trim. *)
Theorem get_cfp_returns_trimmed_text
  (W : World) (url html : string) (texts out : list string) :
  requests_get W url = inr html -> soup_find_cfp W html = Some texts ->
  exists cfp, get_cfp W url out = (inr cfp, out) /\ strip cfp = cfp.
Proof.
  intros Hg Hf. exists (clean_text texts). split.
  - now apply get_cfp_section with (html := html).
  - apply clean_text_trimmed.
Qed.

Example sample_texts_clean :
  clean_text sample_texts = "Call for Papers cole".
Proof. reflexivity. Qed.

Lemma get_cfp_returns_ascii_without_newline_or_tab_witness :
  exists cfp,
    get_cfp (sample_world wikicfp_home (inr "<html>") (Some sample_texts))
      "http://wikicfp.com" []
    = (inr cfp, [])
    /\ forall c, In c (list_ascii_of_string cfp) ->
                 nat_of_ascii c < 128 /\ c <> newline /\ c <> tab.
Proof.
  apply (get_cfp_returns_ascii_without_newline_or_tab
           (sample_world wikicfp_home (inr "<html>") (Some sample_texts))
           "http://wikicfp.com" "<html>" sample_texts []);
    reflexivity.
Defined.

Lemma get_cfp_returns_trimmed_text_witness :
  exists cfp,
    get_cfp (sample_world wikicfp_home (inr "<html>") (Some sample_texts))
      "http://wikicfp.com" []
    = (inr cfp, [])
    /\ strip cfp = cfp.
Proof.
  apply (get_cfp_returns_trimmed_text
           (sample_world wikicfp_home (inr "<html>") (Some sample_texts))
           "http://wikicfp.com" "<html>" sample_texts []);
    reflexivity.
Defined.

(** The run from line 129 on, by cases on the check, the response, the
    section and the engine. *)
Lemma run_cases (W : World) (args : Args) :
  run W args
  = if url_accepted W args then
      match response W args with
      | inl exn => (inl (Uncaught exn), [])
      | inr html =>
          match soup_find_cfp W html with
          | None => rejected
          | Some texts =>
              match engine_raises W (arg_model args) (clean_text texts) with
              | Some exn => (inl (Uncaught exn), [])
              | None =>
                  (inr tt,
                   (warning W (arg_model args) (clean_text texts)
                    ++ report (ner W (arg_model args) (clean_text texts)))%list)
              end
          end
      end
    else rejected.
Proof.
  unfold run, main, url_accepted, response.
  destruct (tuple_contains "wikicfp.com" (urlparse W (arg_url args)));
    [|reflexivity].
  unfold bind at 1. cbn [negb ret]. unfold process, bind at 1, get_cfp.
  destruct (requests_get W (geturl W (urlparse W (arg_url args))))
    as [exn|html]; [reflexivity|].
  destruct (soup_find_cfp W html) as [texts|]; [|reflexivity].
  fold (clean_text texts). cbn [ret].
  unfold engine_raises, warning, ner, report.
  destruct (arg_model args).
  - unfold bind at 1, call_spacy_ner.
    destruct (nlp_raises W (clean_text texts)); [reflexivity|].
    cbn [ret].
    destruct (names_affiliations (spacy_ner W (clean_text texts)))
      as [names affiliations].
    unfold bind, print. cbn [fst snd app join].
    rewrite !append_assoc. reflexivity.
  - unfold bind at 1, call_stanford_ner.
    destruct (st_tag_raises W (clean_text texts)); [reflexivity|].
    destruct (names_affiliations (stanford_ner W (clean_text texts)))
      as [names affiliations] eqn:E.
    destruct (st_tag W (word_tokenize W (clean_text texts)));
      unfold bind, print, ret; rewrite E; cbn [fst snd app join];
      rewrite !append_assoc; reflexivity.
Qed.

(** The whole run, by cases on the command line and on [urlparse]. *)
Lemma execute_cases (W : World) (argv : list string) :
  execute W argv
  = match parse_args W argv with
    | UsageError => (inl (SystemExit 2), [])
    | HelpRequested help => (inl (SystemExit 0), [help])
    | Namespace args =>
        match urlparse_raises W (arg_url args) with
        | Some exn => (inl (Uncaught exn), [])
        | None => run W args
        end
    end.
Proof.
  unfold execute, program.
  destruct (parse_args W argv) as [args| |help]; try reflexivity.
  destruct (urlparse_raises W (arg_url args)); reflexivity.
Qed.




(** A run reaches its end exactly when the command line parsed, [urlparse]
    returned, the URL passed the check, the request returned, the page has
    its section and the engine of the selected path returned.  Its output
    is then the two blocks for the entities of that path, after the
    parser's warning line when the Stanford path had no token. *)
Theorem run_completes_iff_nothing_fails
  (W : World) (argv : list string) (out : list string) :
  execute W argv = (inr tt, out)
  <-> exists args html texts,
        parse_args W argv = Namespace args
        /\ urlparse_raises W (arg_url args) = None
        /\ url_accepted W args = true
        /\ response W args = inr html
        /\ soup_find_cfp W html = Some texts
        /\ engine_raises W (arg_model args) (clean_text texts) = None
        /\ out = (warning W (arg_model args) (clean_text texts)
                  ++ report (ner W (arg_model args) (clean_text texts)))%list.
Proof.
  rewrite execute_cases. split.
  - destruct (parse_args W argv) as [args| |help]; try discriminate.
    destruct (urlparse_raises W (arg_url args)) eqn:Eu; [discriminate|].
    rewrite run_cases. unfold rejected.
    destruct (url_accepted W args) eqn:Ea; [|discriminate].
    destruct (response W args) as [exn|html] eqn:Er; [discriminate|].
    destruct (soup_find_cfp W html) as [texts|] eqn:Ef; [|discriminate].
    destruct (engine_raises W (arg_model args) (clean_text texts)) eqn:Ee;
      [discriminate|].
    intro H. injection H as <-. exists args, html, texts.
    split; [reflexivity|]. split; [exact Eu|]. split; [exact Ea|].
    split; [exact Er|]. split; [exact Ef|]. split; [exact Ee | reflexivity].
  - intros [args [html [texts [-> [-> [Ha [Hr [Hf [He ->]]]]]]]]].
    rewrite run_cases, Ha, Hr, Hf, He. reflexivity.
Qed.

(** The Stanford path on a page whose section is empty: the warning of the
    parser comes before the two blocks. *)
Example empty_section_stanford_run :
  execute (empty_section_world None) ["--url"; "http://wikicfp.com"; "--model"; "m2"]
  = (inr tt,
     ["Warning: parsing empty text" ++ nl;
      "***Names***" ++ nl ++ "  " ++ nl ++ nl;
      "***Affiliations***" ++ nl ++ " " ++ nl]).
Proof. reflexivity. Qed.

(** A tagger that fails ends the run after the fetch, with nothing
    printed. *)
Example failing_tagger_run :
  execute (empty_section_world (Some "LookupError"))
    ["--url"; "http://wikicfp.com"; "--model"; "m2"]
  = (inl (Uncaught "LookupError"), []).
Proof. reflexivity. Qed.

End RunFacts.

(** ** More on the chunker and on [spacy_ner] *)

Module ScanFacts.
Import PyStr PyStrFacts TextFacts Chunker ChunkerFacts Output Program Report.

Lemma take_while_boundary (r l2 : list conll) :
  (forall c, hd_error l2 = Some c -> iob c <> "I-Tag") ->
  take_while is_inside (r ++ l2) = take_while is_inside r.
Proof.
  intro H. induction r as [|x r IH]; simpl.
  - destruct l2 as [|c l2]; [reflexivity|]. simpl.
    unfold is_inside. destruct (iob c =? "I-Tag") eqn:E; [|reflexivity].
    exfalso. apply (H c eq_refl). now apply String.eqb_eq.
  - destruct (is_inside x); [now rewrite IH | reflexivity].
Qed.

Lemma entities_boundary (l1 l2 : list conll) :
  (forall c, hd_error l2 = Some c -> iob c <> "I-Tag") ->
  entities (l1 ++ l2) = (entities l1 ++ entities l2)%list.
Proof.
  intro H. induction l1 as [|c l1 IH]; [reflexivity|].
  simpl. destruct (is_begin c); [|exact IH].
  unfold entity_of. rewrite (take_while_boundary l1 l2 H), IH. reflexivity.
Qed.

(** Cutting the sequence anywhere but in front of an inside marker cuts
    the result: the entities of the whole are those of the first part
    followed by those of the second. *)
Theorem chunks_split_at_boundary (l1 l2 : list conll) :
  (forall c, hd_error l2 = Some c -> iob c <> "I-Tag") ->
  stanford_ner_chunks (l1 ++ l2)
  = (stanford_ner_chunks l1 ++ stanford_ner_chunks l2)%list.
Proof.
  intro H. rewrite !stanford_ner_chunks_entities.
  now apply entities_boundary.
Qed.

Lemma chunks_split_at_boundary_witness :
  stanford_ner_chunks (sample_chunks ++ orphan_chunks_pre)
  = (stanford_ner_chunks sample_chunks
     ++ stanford_ner_chunks orphan_chunks_pre)%list.
Proof.
  apply (chunks_split_at_boundary sample_chunks orphan_chunks_pre).
  intros c H. injection H as <-. discriminate.
Defined.

(** A triple that is neither a begin nor an inside marker ends the entity
    before it and adds nothing: the result is that of the part before it
    followed by that of the part after it, whatever its word and tag. *)
Theorem outside_triple_separates (pre post : list conll) (x : conll) :
  iob x <> "B-Tag" -> iob x <> "I-Tag" ->
  stanford_ner_chunks (pre ++ x :: post)
  = (stanford_ner_chunks pre ++ stanford_ner_chunks post)%list.
Proof.
  intros Hb Hi. rewrite !stanford_ner_chunks_entities.
  rewrite entities_boundary.
  - simpl. unfold is_begin. apply String.eqb_neq in Hb. now rewrite Hb.
  - intros c Hc. injection Hc as <-. exact Hi.
Qed.

Lemma outside_triple_separates_witness :
  stanford_ner_chunks
    (sample_chunks ++ Conll "and" "O" "O" :: orphan_chunks_pre)
  = (stanford_ner_chunks sample_chunks
     ++ stanford_ner_chunks orphan_chunks_pre)%list.
Proof.
  apply (outside_triple_separates sample_chunks orphan_chunks_pre
           (Conll "and" "O" "O")); discriminate.
Defined.

Lemma entities_runs (l : list conll) :
  entities l = map entity_of_run (runs l).
Proof.
  induction l as [|c l IH]; [reflexivity|].
  simpl. destruct (is_begin c); simpl; now rewrite IH.
Qed.

Lemma runs_in_runs (l : list conll) :
  concat (runs l) = in_runs false l
  /\ (take_while is_inside l ++ concat (runs l))%list = in_runs true l.
Proof.
  induction l as [|c l [IHf IHt]]; [split; reflexivity|].
  simpl. destruct (is_begin c) eqn:Eb.
  - rewrite (begin_not_inside c Eb). simpl. rewrite <- IHt. auto.
  - destruct (is_inside c); simpl; split;
      solve [exact IHf | now rewrite <- IHt].
Qed.

Lemma in_runs_length (st : bool) (l : list conll) :
  List.length (in_runs st l) <= List.length l.
Proof.
  revert st; induction l as [|c l IH]; intro st; simpl; [lia|].
  destruct (is_begin c); [simpl; specialize (IH true); lia|].
  destruct (is_inside c); [destruct st|]; simpl;
    [specialize (IH true) | specialize (IH false) | specialize (IH false)];
    lia.
Qed.

(** The entities are built from runs of triples that do not overlap: put
    end to end in the order of the result, the runs are exactly the triples
    of the sequence that lie in a run a begin marker opened, each one once
    and in its place; so no token goes into two entities. *)
Theorem entity_runs_do_not_overlap (l : list conll) :
  stanford_ner_chunks l = map entity_of_run (runs l)
  /\ concat (runs l) = in_runs false l
  /\ List.length (concat (runs l)) <= List.length l.
Proof.
  split; [|split].
  - rewrite stanford_ner_chunks_entities. apply entities_runs.
  - apply runs_in_runs.
  - rewrite (proj1 (runs_in_runs l)). apply in_runs_length.
Qed.

Lemma run_text_tight (b : conll) (run : list conll) :
  Forall (fun c => strip (word c) <> "") (b :: run) ->
  tight (run_text (b :: run)).
Proof.
  intro H. unfold run_text. cbn [map]. apply tight_join.
  change (Forall tight (map (fun c => strip (word c)) (b :: run))).
  apply Forall_map. eapply Forall_impl; [|exact H].
  intros c Hc. now apply tight_strip.
Qed.

Lemma take_while_incl {A : Type} (p : A -> bool) (l : list A) (x : A) :
  In x (take_while p l) -> In x l.
Proof.
  induction l as [|y l IH]; simpl; [tauto|].
  destruct (p y); simpl; tauto.
Qed.

Lemma skipn_incl {A : Type} (n : nat) (l : list A) (x : A) :
  In x (skipn n l) -> In x l.
Proof.
  revert l; induction n as [|n IH]; intros [|y l]; simpl; auto.
Qed.

(** When no token of the sequence is blank, every entity text is non-empty
    and has no whitespace at either end. *)
Theorem entity_text_is_trimmed (l : list conll) (e : entity) :
  (forall c, In c l -> strip (word c) <> "") ->
  In e (stanford_ner_chunks l) ->
  fst e <> "" /\ strip (fst e) = fst e.
Proof.
  intros Hl H.
  rewrite stanford_ner_chunks_entities, entities_by_position in H.
  apply in_map_iff in H. destruct H as [i [<- Hi]].
  apply filter_In in Hi. destruct Hi as [_ Hi].
  destruct (begin_at_nth l i Hi) as [b [Hn _]].
  rewrite (entity_at_nth l i b Hn). unfold entity_of. cbn [fst].
  assert (T : tight (run_text (b :: take_while is_inside (skipn (S i) l)))).
  { apply run_text_tight. apply Forall_forall. intros c [<-|Hc].
    - apply Hl. exact (nth_error_In l i Hn).
    - apply Hl. eapply skipn_incl, take_while_incl, Hc. }
  split; [apply T | now apply tight_stripped].
Qed.

Lemma entity_text_is_trimmed_witness :
  fst ("Acme Corp", "ORG") <> ""
  /\ strip (fst ("Acme Corp", "ORG")) = fst ("Acme Corp", "ORG").
Proof.
  apply (entity_text_is_trimmed sample_chunks ("Acme Corp", "ORG")).
  - intros c [<-|[<-|[<-|[]]]]; discriminate.
  - left. reflexivity.
Defined.

(** [spacy_ner] returns, in the order of the spans, the trimmed text and
    the label of exactly the spans labelled ["ORG"] or ["PERSON"]; a text it
    returns has no whitespace at either end. *)
Theorem spacy_ner_keeps_person_and_org_spans (W : World) (cfp : string) :
  spacy_ner W cfp
  = map (fun chunk => (strip (fst chunk), snd chunk))
      (filter kept (nlp_ents W cfp))
  /\ (forall e, In e (spacy_ner W cfp) -> strip (fst e) = fst e)
  /\ List.length (spacy_ner W cfp) <= List.length (nlp_ents W cfp).
Proof.
  assert (E : spacy_ner W cfp
              = map (fun chunk => (strip (fst chunk), snd chunk))
                  (filter kept (nlp_ents W cfp))).
  { unfold spacy_ner. cbn zeta. now rewrite ProgramFacts.fold_spacy_filter. }
  split; [exact E|]. split.
  - intros e He. rewrite E in He. apply in_map_iff in He.
    destruct He as [c [<- _]]. apply strip_idem.
  - rewrite E, length_map. apply filter_length_le.
Qed.

End ScanFacts.

(** ** More on the output step *)

Module PartitionFacts.
Import Chunker Output OutputFacts Program ProgramFacts Report.

Lemma Permutation_filter_same {A : Type} (p : A -> bool) (l1 l2 : list A) :
  Permutation l1 l2 -> Permutation (filter p l1) (filter p l2).
Proof.
  induction 1 as [|x l1 l2 _ IH|x y l|l1 l2 l3 _ IH1 _ IH2]; simpl.
  - constructor.
  - destruct (p x); [now constructor | exact IH].
  - destruct (p x), (p y); try reflexivity. apply perm_swap.
  - now transitivity (filter p l2).
Qed.

Lemma texts_of_permutation (category : string) (r1 r2 : list entity) :
  Permutation r1 r2 ->
  Permutation (texts_of category r1) (texts_of category r2).
Proof.
  intro H. unfold texts_of. now apply Permutation_map, Permutation_filter_same.
Qed.

Lemma sort_permutation_invariant (l1 l2 : list string) :
  Permutation l1 l2 -> sort l1 = sort l2.
Proof.
  intro H. apply sorted_unique; try apply sort_sorted.
  rewrite (sort_permutation l1), (sort_permutation l2). exact H.
Qed.

(** The two lists do not depend on the order in which the entities were
    found. *)
Theorem output_ignores_entity_order (r1 r2 : list entity) :
  Permutation r1 r2 -> names_affiliations r1 = names_affiliations r2.
Proof.
  intro H. rewrite !names_affiliations_sort. f_equal;
    now apply sort_permutation_invariant, texts_of_permutation.
Qed.

Lemma output_ignores_entity_order_witness :
  names_affiliations [("Jane Doe", "PERSON"); ("MIT", "ORG"); ("Ann", "PERSON")]
  = names_affiliations [("Ann", "PERSON"); ("Jane Doe", "PERSON"); ("MIT", "ORG")].
Proof.
  apply (output_ignores_entity_order
           [("Jane Doe", "PERSON"); ("MIT", "ORG"); ("Ann", "PERSON")]
           [("Ann", "PERSON"); ("Jane Doe", "PERSON"); ("MIT", "ORG")]).
  apply Permutation_sym.
  apply (Permutation_cons_app [("Jane Doe", "PERSON"); ("MIT", "ORG")] []).
  apply Permutation_refl.
Defined.

Lemma texts_of_kept (category : string) (result : list entity) :
  category = "PERSON" \/ category = "ORG" ->
  texts_of category (filter kept result) = texts_of category result.
Proof.
  intro Hc. unfold texts_of. f_equal.
  induction result as [|e result IH]; [reflexivity|].
  simpl. unfold kept at 1.
  destruct (snd e =? category) eqn:E.
  - apply String.eqb_eq in E. rewrite E.
    destruct Hc as [-> | ->]; simpl; rewrite IH;
      now rewrite <- E, String.eqb_refl.
  - destruct ((snd e =? "ORG") || (snd e =? "PERSON")); simpl;
      rewrite ?E; exact IH.
Qed.

Lemma kept_categories (result : list entity) (e : entity) :
  In e (filter kept result) -> snd e = "PERSON" \/ snd e = "ORG".
Proof.
  intro H. apply filter_In in H. destruct H as [_ H].
  apply orb_true_iff in H.
  destruct H as [H|H]; apply String.eqb_eq in H; auto.
Qed.

(** Entities of any category other than ["PERSON"] and ["ORG"] leave no
    trace: the two lists are those of the result without them, and together
    they hold one text for each entity of the two categories. *)
Theorem output_drops_other_categories (result : list entity) :
  names_affiliations (filter kept result) = names_affiliations result
  /\ List.length (fst (names_affiliations result))
     + List.length (snd (names_affiliations result))
     = List.length (filter kept result)
  /\ List.length (filter kept result) <= List.length result.
Proof.
  split; [|split].
  - rewrite !names_affiliations_sort, !texts_of_kept; auto.
  - rewrite names_affiliations_sort. cbn [fst snd].
    rewrite !(Permutation_length (sort_permutation _)).
    rewrite <- (texts_of_kept "PERSON"), <- (texts_of_kept "ORG") by auto.
    apply texts_of_cover, kept_categories.
  - apply filter_length_le.
Qed.

End PartitionFacts.

(** ** What the chunker reads of a triple *)

Module ReadFacts.
Import PyStr Chunker ChunkerFacts Report.

Lemma same_take_while (l l' : list conll) :
  Forall2 same_for_chunker l l' ->
  map (fun c => strip (word c)) (take_while is_inside l)
  = map (fun c => strip (word c)) (take_while is_inside l').
Proof.
  induction 1 as [|c d l l' [Hi [Hw _]] _ IH]; [reflexivity|].
  assert (Hd : is_inside d = is_inside c)
    by (unfold is_inside; now rewrite Hi).
  simpl. rewrite Hd.
  destruct (is_inside c); simpl; [now rewrite Hw, IH | reflexivity].
Qed.

Lemma same_entities (l l' : list conll) :
  Forall2 same_for_chunker l l' -> entities l = entities l'.
Proof.
  induction 1 as [|c d l l' [Hi [Hw Ht]] Hl IH]; [reflexivity|].
  assert (Hd : is_begin d = is_begin c)
    by (unfold is_begin; now rewrite Hi).
  simpl. rewrite Hd.
  destruct (is_begin c) eqn:E; [|exact IH].
  apply String.eqb_eq in E.
  unfold entity_of, run_text. cbn [map].
  now rewrite Hw, (same_take_while l l' Hl), (Ht E), IH.
Qed.

(** The chunker reads the marker of every triple, the trimmed word of
    every triple and the tag of the begin triples, and nothing else: the tag
    of an inside triple has no effect on the result. *)
Theorem chunker_ignores_inside_tags (l l' : list conll) :
  Forall2 same_for_chunker l l' ->
  stanford_ner_chunks l = stanford_ner_chunks l'.
Proof.
  intro H. rewrite !stanford_ner_chunks_entities. now apply same_entities.
Qed.

Lemma chunker_ignores_inside_tags_witness :
  stanford_ner_chunks
    [Conll "John" "PERSON" "B-Tag"; Conll "MIT" "ORGANIZATION" "I-Tag"]
  = stanford_ner_chunks
      [Conll " John" "PERSON" "B-Tag"; Conll "MIT" "PERSON" "I-Tag"].
Proof.
  apply (chunker_ignores_inside_tags
           [Conll "John" "PERSON" "B-Tag"; Conll "MIT" "ORGANIZATION" "I-Tag"]
           [Conll " John" "PERSON" "B-Tag"; Conll "MIT" "PERSON" "I-Tag"]).
  repeat constructor; simpl; intro H; discriminate H.
Defined.

End ReadFacts.
